(** * Task manager of src/src/App.js: reducer, handlers and derived views

    A shallow embedding of the task store of [App.js] (the reducer
    [taskReducer], the [addTask] click handler, the memoised views
    [completedTasks] and [filteredTasks]) together with the properties the
    specification states about them.

    Modelling choices.
    - For the store, the handlers and the views as list operations, a
      JavaScript string is a [string]: a sequence of code units below 256
      (one [ascii] each).  On that range the host's [trim] and
      [toLowerCase] are the per-unit functions of [JsString].
    - The host's [toLowerCase] is not a per-unit function on all strings:
      a capital sigma becomes a final or a medial small sigma according to
      its neighbours.  [Utf16] models strings as sequences of 16-bit code
      units and the host's mapping, with that rule, on the code units below
      256 and the Greek letters alpha to omega; what the search does with
      the case of letters is settled there.  On code units below 256 the
      two models agree ([filter_test_units]).
    - [Date.now()] is a reading of the host clock.  The reducer receives the
      reading as an explicit argument [now].
    - A task id is the integer the clock returned, a [Z]; [===] on two ids
      is equality of integers. *)

From Stdlib Require Import ZArith Ascii String Sorted Decimal DecimalString DecimalNat.
From stdpp Require Import base tactics option list strings sorting.

Local Open Scope string_scope.
Local Open Scope Z_scope.
Local Open Scope list_scope.

(** ** Host string operations used by the component *)

Module JsString.

(** Code units (below 256) that [String.prototype.trim] strips: TAB, LF,
    VT, FF, CR, SPACE and NO-BREAK SPACE. *)
Definition isWhiteSpace (c : ascii) : bool :=
  let n := N_of_ascii c in
  (((9 <=? n) && (n <=? 13)) || (n =? 32) || (n =? 160))%N.

Fixpoint trimStart (s : string) : string :=
  match s with
  | EmptyString => EmptyString
  | String c s' => if isWhiteSpace c then trimStart s' else s
  end.

Fixpoint trimEnd (s : string) : string :=
  match s with
  | EmptyString => EmptyString
  | String c s' =>
      match trimEnd s' with
      | EmptyString => if isWhiteSpace c then EmptyString else String c EmptyString
      | r => String c r
      end
  end.

Definition trim (s : string) : string := trimEnd (trimStart s).

(** [ToBoolean] of a string: every string but the empty one is truthy. *)
Definition truthy (s : string) : bool :=
  match s with
  | EmptyString => false
  | String _ _ => true
  end.

(** Lower-case mapping of one code unit below 256: [A-Z] and the capital
    letters U+00C0..U+00DE (the multiplication sign U+00D7 is no letter)
    move up by 32, every other unit stays. *)
Definition toLowerCase_unit (c : ascii) : ascii :=
  let n := N_of_ascii c in
  if (((65 <=? n) && (n <=? 90))
      || ((192 <=? n) && (n <=? 222) && negb (n =? 215)))%N
  then ascii_of_N (n + 32)
  else c.

Fixpoint toLowerCase (s : string) : string :=
  match s with
  | EmptyString => EmptyString
  | String c s' => String (toLowerCase_unit c) (toLowerCase s')
  end.

(** [s.startsWith(search)]. *)
Fixpoint startsWith (s search : string) {struct search} : bool :=
  match search, s with
  | EmptyString, _ => true
  | String _ _, EmptyString => false
  | String a search', String b s' =>
      if Ascii.eqb a b then startsWith s' search' else false
  end.

(** [s.includes(search)]: [search] occurs in [s] at some position. *)
Fixpoint includes (s search : string) : bool :=
  startsWith s search ||
  match s with
  | EmptyString => false
  | String _ s' => includes s' search
  end.

End JsString.

Import JsString.

(** ** Data model *)

Record Task : Type := mkTask {
  id : Z;
  text : string;
  completed : bool
}.

#[global] Instance Task_eq_dec : EqDecision Task.
Proof. solve_decision. Defined.

(** The action objects [dispatch] receives, by their [type] field.  [Other]
    stands for every object whose [type] is none of the three the reducer
    knows. *)
Inductive action : Type :=
| Add (text : string)
| Toggle (id : Z)
| Filter (payload : list Task)
| Other (type : string).

(** ** The reducer *)

(** [{ ...task, completed: !task.completed }] *)
Definition toggleCompleted (task : Task) : Task :=
  {| id := id task; text := text task; completed := negb (completed task) |}.

Definition taskReducer (now : Z) (state : list Task) (a : action) : list Task :=
  match a with
  | Add text => state ++ [ {| id := now; text := text; completed := false |} ]
  | Toggle id0 =>
      (fun task => if (id task =? id0)%Z then toggleCompleted task else task) <$> state
  | Filter payload => payload
  | Other _ => state
  end.

(** ** Derived views *)

(** [tasks.filter((task) => task.completed)] *)
Definition completedTasks (tasks : list Task) : list Task :=
  filter (fun task => completed task) tasks.

(** [tasks.filter((task) =>
      task.text.toLowerCase().includes(deferredSearchTerm.toLowerCase()))] *)
Definition filteredTasks (tasks : list Task) (deferredSearchTerm : string)
  : list Task :=
  filter
    (fun task =>
       includes (toLowerCase (text task)) (toLowerCase deferredSearchTerm))
    tasks.

(** ** The component state and its handlers *)

Record AppState : Type := mkAppState {
  newTask : string;
  searchTerm : string;
  tasks : list Task
}.

(** What a handler asks the framework to do, in the order it asks. *)
Inductive effect : Type :=
| Dispatch (a : action)
| SetNewTask (v : string)
| SetSearchTerm (v : string).

(** The [addTask] callback, closed over the [newTask] of the current
    render. *)
Definition addTask (newTask : string) : list effect :=
  if truthy (trim newTask)
  then [Dispatch (Add newTask); SetNewTask ""]
  else [].

(** [handleSearch]; the transition only lowers the priority of the update. *)
Definition handleSearch (value : string) : list effect :=
  [SetSearchTerm value].

(** The framework applies one effect; [now] is what the clock returns
    while the reducer runs. *)
Definition run_effect (now : Z) (st : AppState) (e : effect) : AppState :=
  match e with
  | Dispatch a =>
      {| newTask := newTask st; searchTerm := searchTerm st;
         tasks := taskReducer now (tasks st) a |}
  | SetNewTask v =>
      {| newTask := v; searchTerm := searchTerm st; tasks := tasks st |}
  | SetSearchTerm v =>
      {| newTask := newTask st; searchTerm := v; tasks := tasks st |}
  end.

Definition run_effects (now : Z) (st : AppState) (es : list effect) : AppState :=
  foldl (run_effect now) st es.

(** What the user can do to the rendered component. *)
Inductive interaction : Type :=
| ChangeNewTask (value : string)
| ClickAddTask
| ClickToggle (id : Z)
| ChangeSearch (value : string).

(** The effects the handler bound to an interaction asks for. *)
Definition handler (st : AppState) (i : interaction) : list effect :=
  match i with
  | ChangeNewTask value => [SetNewTask value]
  | ClickAddTask => addTask (newTask st)
  | ClickToggle id0 => [Dispatch (Toggle id0)]
  | ChangeSearch value => handleSearch value
  end.

(** An event is an interaction together with the clock reading of the
    moment it is handled. *)
Definition event : Type := Z * interaction.

(** One event, handled by the callbacks of a render of the state [st]:
    the component has rendered since the event before. *)
Definition handle (st : AppState) (ev : event) : AppState :=
  run_effects (fst ev) st (handler st (snd ev)).

(** Two clicks on Add Task handled before the component renders again:
    both run the [addTask] callback of the one render, closed over the
    [newTask] of that render. *)
Definition addTask_twice_one_render (now now' : Z) (st : AppState) : AppState :=
  run_effects now' (run_effects now st (addTask (newTask st)))
    (addTask (newTask st)).

(** [useState("")], [useState("")], [useReducer(taskReducer, [])] *)
Definition initial : AppState :=
  {| newTask := ""; searchTerm := ""; tasks := [] |}.

Definition session (evs : list event) : AppState := foldl handle initial evs.

(** The host clock never runs backwards: the readings of a session are in
    non-decreasing order. *)
Definition clock_monotone (evs : list event) : Prop :=
  StronglySorted Z.le (evs.*1).

(** No two events of the session are handled at the same reading. *)
Definition clock_strict (evs : list event) : Prop :=
  StronglySorted Z.lt (evs.*1).

(** ** Vocabulary of the properties *)

(** How often an id occurs in a store. *)
Definition occurrences (i : Z) (state : list Task) : nat :=
  length (filter (fun task => id task = i) state).

(** ** The debug label, the layout effect and the optimistic overlay *)

(** [`${n}`] for an array length [n]: its decimal digits. *)
Definition numberToString (n : nat) : string :=
  NilEmpty.string_of_uint (Nat.to_uint n).

(** The formatter [useTaskLogger] gives to [useDebugValue]:
    [tasks.length > 0 ? `${tasks.length} tasks` : "No tasks"]. *)
Definition taskLoggerLabel (tasks : list Task) : string :=
  if (0 <? length tasks)%nat
  then numberToString (length tasks) +:+ " tasks"
  else "No tasks".

Definition useTaskLogger (tasks : list Task) : list Task := tasks.

(** What one run of an effect leaves on the console: nothing, one line, or
    the [TypeError] of reading a property of [undefined]. *)
Inductive console : Type :=
| Silent
| Logged (line : string)
| TypeError.

(** The layout effect: under the guard [tasks.length > 0] it logs
    [tasks[tasks.length - 1].text]; an index outside the array reads
    [undefined], whose [.text] throws. *)
Definition latestTaskEffect (tasks : list Task) : console :=
  if (0 <? length tasks)%nat
  then match tasks !! (length tasks - 1)%nat with
       | Some task => Logged (text task)
       | None => TypeError
       end
  else Silent.

(** The values [setOptimisticTasks] is called with, seen through their
    [type] field: an object of type ['add'] carrying a task, an object of
    another type, or a function, which has no [type] field. *)
Inductive overlayAction : Type :=
| OverlayAdd (task : Task)
| OverlayOther (type : string)
| OverlayUpdater (update : list Task -> list Task).

(** The reducer given to [useOptimistic]. *)
Definition optimisticReducer (state : list Task) (a : overlayAction)
  : list Task :=
  match a with
  | OverlayAdd task => state ++ [task]
  | OverlayOther _ => state
  | OverlayUpdater _ => state
  end.

(** [addOptimisticTask]: the task it builds and logs, and the value it
    passes to [setOptimisticTasks] inside the transition. *)
Definition addOptimisticTask (now : Z) : Task * overlayAction :=
  let newTask := {| id := now; text := "Optimistic Task"; completed := false |} in
  (newTask, OverlayUpdater (fun currentTasks => currentTasks ++ [newTask])).

(** [optimisticTasks] while the actions [pending] are in flight: the
    reducer folded over them from the pass-through value [[]]. *)
Definition optimisticTasks (pending : list overlayAction) : list Task :=
  foldl optimisticReducer [] pending.

(** ** Vocabulary of the further properties *)

(** Every code unit of the string is one that [trim] strips. *)
Fixpoint allWhiteSpace (s : string) : bool :=
  match s with
  | EmptyString => true
  | String c s' => isWhiteSpace c && allWhiteSpace s'
  end.

(** What identifies a task for the user: its id and its text. *)
Definition taskKey (task : Task) : Z * string := (id task, text task).

(** ** Strings of 16-bit code units and the host's lower-casing *)

(** The code units of a string of [JsString]. *)
Definition units (s : string) : list N :=
  N_of_ascii <$> list_ascii_of_string s.

Module Utf16.

(** The range on which the functions below are the host's: the code units
    below 256 and the Greek letters, capital U+0391..U+03A9 (U+03A2 is not
    assigned) and small U+03B1..U+03C9. *)
Definition greekCapital (u : N) : bool :=
  (((913 <=? u) && (u <=? 929)) || ((931 <=? u) && (u <=? 937)))%N.

Definition greekSmall (u : N) : bool := ((945 <=? u) && (u <=? 969))%N.

Definition modelled (u : N) : bool :=
  (u <? 256)%N || greekCapital u || greekSmall u.

(** Capital letters below 256: [A-Z] and U+00C0..U+00DE without the
    multiplication sign U+00D7. *)
Definition latinCapital (u : N) : bool :=
  (((65 <=? u) && (u <=? 90))
   || ((192 <=? u) && (u <=? 222) && negb (u =? 215)))%N.

(** The simple lower-case mapping of a code unit: on the modelled range
    every capital has its small letter 32 places up. *)
Definition toLowerCase_unit (u : N) : N :=
  if latinCapital u || greekCapital u then (u + 32)%N else u.

(** The Unicode property Cased on the modelled range: the letters, with
    the ordinal indicators U+00AA and U+00BA and the micro sign U+00B5. *)
Definition cased (u : N) : bool :=
  (((65 <=? u) && (u <=? 90)) || ((97 <=? u) && (u <=? 122))
   || (u =? 170) || (u =? 181) || (u =? 186)
   || ((192 <=? u) && (u <=? 214)) || ((216 <=? u) && (u <=? 246))
   || ((248 <=? u) && (u <=? 255)))%N
  || greekCapital u || greekSmall u.

(** The Unicode property Case_Ignorable on the modelled range: apostrophe,
    full stop, colon, circumflex, grave, diaeresis, soft hyphen, macron,
    acute, middle dot and cedilla. *)
Definition caseIgnorable (u : N) : bool :=
  ((u =? 39) || (u =? 46) || (u =? 58) || (u =? 94) || (u =? 96)
   || (u =? 168) || (u =? 173) || (u =? 175) || (u =? 180) || (u =? 183)
   || (u =? 184))%N.

Definition capitalSigma : N := 931.
Definition smallSigma : N := 963.
Definition finalSigma : N := 962.

(** Past any case-ignorable units, the next unit is a cased letter. *)
Fixpoint followedByCased (s : list N) : bool :=
  match s with
  | [] => false
  | u :: rest => if caseIgnorable u then followedByCased rest else cased u
  end.

(** Lower-casing from a position of the string; [afterCased] tells whether,
    going back past any case-ignorable units, the unit before is a cased
    letter.  A capital sigma after a cased letter and not before one is a
    final sigma. *)
Fixpoint toLowerCase_from (afterCased : bool) (s : list N) : list N :=
  match s with
  | [] => []
  | u :: rest =>
      (if (u =? capitalSigma)%N
       then if afterCased && negb (followedByCased rest)
            then finalSigma else smallSigma
       else toLowerCase_unit u)
      :: toLowerCase_from (if caseIgnorable u then afterCased else cased u) rest
  end.

(** [s.toLowerCase()] *)
Definition toLowerCase (s : list N) : list N := toLowerCase_from false s.

(** [s.startsWith(search)] *)
Fixpoint startsWith (s search : list N) {struct search} : bool :=
  match search, s with
  | [], _ => true
  | _ :: _, [] => false
  | a :: search', b :: s' => if (a =? b)%N then startsWith s' search' else false
  end.

(** [s.includes(search)] *)
Fixpoint includes (s search : list N) : bool :=
  startsWith s search ||
  match s with
  | [] => false
  | _ :: s' => includes s' search
  end.

Record Task : Type := mkTask {
  id : Z;
  text : list N;
  completed : bool
}.

(** [tasks.filter((task) =>
      task.text.toLowerCase().includes(deferredSearchTerm.toLowerCase()))] *)
Definition filteredTasks (tasks : list Task) (deferredSearchTerm : list N)
  : list Task :=
  filter
    (fun task =>
       includes (toLowerCase (text task)) (toLowerCase deferredSearchTerm))
    tasks.

(** *** What the specification calls a case-insensitive substring *)

(** The capital letters, as the alphabets list them: Latin [A-Z], the
    accented capitals U+00C0..U+00D6 and U+00D8..U+00DE, Greek Alpha to
    Rho and Sigma to Omega. *)
Definition capitalLetter (u : N) : bool :=
  (((65 <=? u) && (u <=? 90)) || ((192 <=? u) && (u <=? 214))
   || ((216 <=? u) && (u <=? 222)) || ((913 <=? u) && (u <=? 929))
   || ((931 <=? u) && (u <=? 937)))%N.

(** [small] is the small form of the capital letter [capital]. *)
Definition smallOf (capital small : N) : bool :=
  capitalLetter capital && (small =? capital + 32)%N.

Definition isSigma (u : N) : bool :=
  ((u =? 931) || (u =? 962) || (u =? 963))%N.

(** Two code units are the same letter up to case: the same unit, a capital
    and its small form, or two forms of sigma. *)
Definition same_letter (a b : N) : bool :=
  (a =? b)%N || smallOf a b || smallOf b a || (isSigma a && isSigma b).

(** Two strings are equal up to case: same length, and the same letter up
    to case at every position. *)
Definition eq_up_to_case (s t : list N) : Prop :=
  Forall2 (fun a b => same_letter a b = true) s t.


(** Every code unit of the string is below 256. *)
Definition below_256 (s : list N) : Prop := Forall (fun u => (u < 256)%N) s.

End Utf16.

(** * Properties *)

(** ** Strings *)

Section StringFacts.

Implicit Types (s t p : string) (c : ascii).

Lemma append_cons c s t : String c s +:+ t = String c (s +:+ t).
Proof. reflexivity. Qed.

Lemma append_nil_l s : "" +:+ s = s.
Proof. reflexivity. Qed.

End StringFacts.

(** ** The reducer: [add] *)

(** C1. For every store and every string [s] that is non-empty after
    trimming, the add handler dispatches the add action with text [s], and
    dispatching that action returns a store one longer than the input,
    whose last element has text [s] and [completed = false], and whose
    other elements are the input's elements in their order. *)
Theorem add_appends_task (now : Z) (state : list Task) (s : string) :
  trim s <> "" ->
  addTask s = [Dispatch (Add s); SetNewTask ""] /\
  let state' := taskReducer now state (Add s) in
  length state' = S (length state) /\
  (exists task, last state' = Some task /\ text task = s /\ completed task = false) /\
  take (length state) state' = state /\
  (forall k task, state !! k = Some task -> state' !! k = Some task).
Proof.
  intros Hs. split.
  - unfold addTask. destruct (trim s); [done | reflexivity].
  - cbn [taskReducer]. repeat split.
    + rewrite length_app. cbn. lia.
    + eexists. rewrite last_snoc. done.
    + by rewrite take_app_length.
    + intros k task Hk. by apply lookup_app_l_Some.
Qed.

Lemma add_appends_task_witness :
  trim " buy milk" <> "" /\
  (addTask " buy milk" = [Dispatch (Add " buy milk"); SetNewTask ""] /\
   let state' :=
     taskReducer 1700000000000 [mkTask 5 "tea" true] (Add " buy milk") in
   length state' = S (length [mkTask 5 "tea" true]) /\
   (exists task,
      last state' = Some task /\ text task = " buy milk" /\
      completed task = false) /\
   take (length [mkTask 5 "tea" true]) state' = [mkTask 5 "tea" true] /\
   (forall k task,
      [mkTask 5 "tea" true] !! k = Some task -> state' !! k = Some task)).
Proof.
  split; [vm_compute; discriminate|].
  apply (add_appends_task 1700000000000 [mkTask 5 "tea" true] " buy milk").
  vm_compute; discriminate.
Defined.

(** ** Counting the occurrences of an id *)

Section Occurrences.

Variable i : Z.

Implicit Types (state : list Task) (task : Task).

Lemma occurrences_cons task state :
  occurrences i (task :: state)
  = if decide (id task = i) then S (occurrences i state) else occurrences i state.
Proof. unfold occurrences. rewrite filter_cons. by case_decide. Qed.

Lemma occurrences_zero state :
  occurrences i state = 0%nat <-> Forall (fun task => id task <> i) state.
Proof.
  induction state as [|task state IH]; [by split|].
  rewrite occurrences_cons, Forall_cons. case_decide; [|tauto].
  split; [discriminate | tauto].
Qed.

Lemma occurrences_one_split state :
  occurrences i state = 1%nat ->
  exists before task after,
    state = before ++ task :: after /\ id task = i /\
    Forall (fun other => id other <> i) before /\
    Forall (fun other => id other <> i) after.
Proof.
  induction state as [|task state IH]; [discriminate|].
  rewrite occurrences_cons. case_decide as Hid.
  - intros [=Hocc%occurrences_zero]. by exists [], task, state.
  - intros (before & hit & after & -> & Hhit & Hb & Ha)%IH.
    exists (task :: before), hit, after.
    split; [done|]. split; [done|]. split; [by constructor | done].
Qed.

Lemma occurrences_pos_split state :
  (0 < occurrences i state)%nat ->
  exists before task after, state = before ++ task :: after /\ id task = i.
Proof.
  induction state as [|task state IH]; [cbn; lia|].
  rewrite occurrences_cons. case_decide as Hid.
  - intros _. by exists [], task, state.
  - intros (before & hit & after & -> & Hhit)%IH.
    by exists (task :: before), hit, after.
Qed.

Lemma occurrences_many_split state :
  (1 < occurrences i state)%nat ->
  exists before first between second after,
    state = before ++ first :: between ++ second :: after /\
    id first = i /\ id second = i.
Proof.
  induction state as [|task state IH]; [cbn; lia|].
  rewrite occurrences_cons. case_decide as Hid.
  - intros Hocc.
    destruct (occurrences_pos_split state) as (between & second & after & -> & ?);
      [lia|].
    by exists [], task, between, second, after.
  - intros (before & first & between & second & after & -> & ? & ?)%IH.
    by exists (task :: before), first, between, second, after.
Qed.

End Occurrences.

(** ** The reducer: [toggle] *)

Section Toggle.

Variables (now : Z) (i : Z).

Implicit Types (state : list Task) (task : Task).

Let toggle state := taskReducer now state (Toggle i).

Lemma toggleCompleted_involutive task :
  toggleCompleted (toggleCompleted task) = task.
Proof. destruct task as [? ? []]; reflexivity. Qed.

Lemma toggle_nil : toggle [] = [].
Proof. reflexivity. Qed.

Lemma toggle_cons task state :
  toggle (task :: state)
  = (if (id task =? i)%Z then toggleCompleted task else task) :: toggle state.
Proof. reflexivity. Qed.

Lemma toggle_clock now' state :
  taskReducer now' state (Toggle i) = toggle state.
Proof. reflexivity. Qed.

Lemma toggle_app state1 state2 :
  toggle (state1 ++ state2) = toggle state1 ++ toggle state2.
Proof. apply fmap_app. Qed.

Lemma toggle_length state : length (toggle state) = length state.
Proof. apply length_fmap. Qed.

Lemma toggle_lookup state k :
  toggle state !! k
  = (fun task => if (id task =? i)%Z then toggleCompleted task else task)
      <$> state !! k.
Proof. apply list_lookup_fmap. Qed.

Lemma toggle_absent state :
  Forall (fun task => id task <> i) state -> toggle state = state.
Proof.
  induction 1 as [|task state Hne _ IH]; [done|].
  rewrite toggle_cons, IH. by destruct (Z.eqb_spec (id task) i).
Qed.

Lemma toggle_ids state : id <$> toggle state = id <$> state.
Proof.
  induction state as [|task state IH]; [done|].
  rewrite toggle_cons, !fmap_cons, IH. by destruct (id task =? i)%Z.
Qed.

Lemma toggle_toggle state : toggle (toggle state) = state.
Proof.
  induction state as [|task state IH]; [done|].
  rewrite !toggle_cons, IH. f_equal.
  destruct (Z.eqb_spec (id task) i) as [Heq|Hne].
  - cbn [toggleCompleted id]. rewrite Heq, Z.eqb_refl.
    apply toggleCompleted_involutive.
  - by destruct (Z.eqb_spec (id task) i).
Qed.

End Toggle.

(** C2. In a store where an id occurs exactly once, the toggle action with
    that id returns a store of the same length in which the one matching
    element has its [completed] flag inverted (same id, same text) and every
    other element is unchanged, in the same order. *)
Theorem toggle_flips_single_match (now i : Z) (state : list Task) :
  occurrences i state = 1%nat ->
  let state' := taskReducer now state (Toggle i) in
  length state' = length state /\
  exists before task after,
    state = before ++ task :: after /\
    id task = i /\
    (forall other, other ∈ before ++ after -> id other <> i) /\
    state' =
      before ++ mkTask (id task) (text task) (negb (completed task)) :: after.
Proof.
  intros (before & task & after & -> & Hid & Hb & Ha)%occurrences_one_split
    state'.
  split; [apply toggle_length|].
  exists before, task, after. do 2 (split; [done|]). split.
  - rewrite Forall_forall in Hb, Ha.
    intros other [Hin|Hin]%elem_of_app; auto.
  - subst state'. rewrite toggle_app, toggle_cons, !toggle_absent by done.
    by destruct (Z.eqb_spec (id task) i).
Qed.

Lemma toggle_flips_single_match_witness :
  occurrences 2 [mkTask 1 "a" false; mkTask 2 "b" false; mkTask 3 "c" true]
  = 1%nat /\
  (let state' :=
     taskReducer 9
       [mkTask 1 "a" false; mkTask 2 "b" false; mkTask 3 "c" true] (Toggle 2) in
   length state'
   = length [mkTask 1 "a" false; mkTask 2 "b" false; mkTask 3 "c" true] /\
   exists before task after,
     [mkTask 1 "a" false; mkTask 2 "b" false; mkTask 3 "c" true]
     = before ++ task :: after /\
     id task = 2 /\
     (forall other, other ∈ before ++ after -> id other <> 2) /\
     state' =
       before ++ mkTask (id task) (text task) (negb (completed task)) :: after).
Proof.
  split; [reflexivity|].
  apply (toggle_flips_single_match 9 2
           [mkTask 1 "a" false; mkTask 2 "b" false; mkTask 3 "c" true]).
  reflexivity.
Defined.

(** C6. The toggle action with an id that matches no task returns the
    store it was given: same length, same elements, same order. *)
Theorem toggle_unknown_id (now i : Z) (state : list Task) :
  (forall task, task ∈ state -> id task <> i) ->
  taskReducer now state (Toggle i) = state.
Proof. intros H. by apply toggle_absent, Forall_forall. Qed.

Lemma toggle_unknown_id_witness :
  (forall task, task ∈ [mkTask 1 "a" false; mkTask 3 "c" true] -> id task <> 2)
  /\ taskReducer 9 [mkTask 1 "a" false; mkTask 3 "c" true] (Toggle 2)
     = [mkTask 1 "a" false; mkTask 3 "c" true].
Proof.
  assert (forall task,
            task ∈ [mkTask 1 "a" false; mkTask 3 "c" true] -> id task <> 2)
    as Habsent.
  { intros task Hin. apply list_elem_of_In in Hin. simpl in Hin.
    destruct Hin as [<-|[<-|[]]]; simpl; lia. }
  split; [exact Habsent|].
  apply (toggle_unknown_id 9 2 [mkTask 1 "a" false; mkTask 3 "c" true] Habsent).
Defined.

(** C7. In a store where an id occurs exactly once, two toggle actions with
    that id in succession return a store in which every element has the
    [completed] value it had at the start; the store is back to its
    original content. *)
Theorem toggle_twice (now now' i : Z) (state : list Task) :
  occurrences i state = 1%nat ->
  let twice := taskReducer now' (taskReducer now state (Toggle i)) (Toggle i) in
  completed <$> twice = completed <$> state /\ twice = state.
Proof.
  intros _ twice.
  assert (twice = state) as ->; [|done].
  subst twice. rewrite (toggle_clock now i now'). apply toggle_toggle.
Qed.

Lemma toggle_twice_witness :
  occurrences 2 [mkTask 1 "a" false; mkTask 2 "b" false] = 1%nat /\
  (let twice :=
     taskReducer 11
       (taskReducer 10 [mkTask 1 "a" false; mkTask 2 "b" false] (Toggle 2))
       (Toggle 2) in
   completed <$> twice = completed <$> [mkTask 1 "a" false; mkTask 2 "b" false]
   /\ twice = [mkTask 1 "a" false; mkTask 2 "b" false]).
Proof.
  split; [reflexivity|].
  apply (toggle_twice 10 11 2 [mkTask 1 "a" false; mkTask 2 "b" false]).
  reflexivity.
Defined.

(** C9. In a store where an id occurs more than once, the toggle action
    with that id inverts the [completed] flag of every element with that id
    (there are two of them at least, at different positions) and leaves the
    other elements as they are. *)
Theorem toggle_flips_every_match (now i : Z) (state : list Task) :
  (1 < occurrences i state)%nat ->
  let state' := taskReducer now state (Toggle i) in
  (forall k task,
     state !! k = Some task -> id task = i ->
     state' !! k = Some (mkTask (id task) (text task) (negb (completed task))))
  /\
  (forall k task,
     state !! k = Some task -> id task <> i -> state' !! k = Some task)
  /\
  (exists k1 k2 task1 task2,
     (k1 < k2)%nat /\
     state !! k1 = Some task1 /\ state !! k2 = Some task2 /\
     id task1 = i /\ id task2 = i /\
     completed <$> state' !! k1 = Some (negb (completed task1)) /\
     completed <$> state' !! k2 = Some (negb (completed task2))).
Proof.
  intros Hocc state'.
  assert (forall k task,
            state !! k = Some task -> id task = i ->
            state' !! k = Some (toggleCompleted task)) as Hhit.
  { intros k task Hk Hid. subst state'.
    by rewrite toggle_lookup, Hk, <-Hid; cbn; rewrite Z.eqb_refl. }
  split; [exact Hhit|]. split.
  - intros k task Hk Hid. subst state'. rewrite toggle_lookup, Hk. cbn.
    by destruct (Z.eqb_spec (id task) i).
  - apply occurrences_many_split in Hocc
      as (before & first & between & second & after & Hstate & Hf & Hs).
    exists (length before), (length before + S (length between))%nat, first, second.
    assert (state !! length before = Some first) as H1.
    { rewrite Hstate. by apply list_lookup_middle. }
    assert (state !! (length before + S (length between))%nat = Some second) as H2.
    { rewrite Hstate, lookup_app_r by lia.
      replace (length before + S (length between) - length before)%nat
        with (S (length between)) by lia.
      rewrite lookup_cons. by apply list_lookup_middle. }
    split; [lia|]. do 4 (split; [done|]).
    by rewrite (Hhit _ _ H1 Hf), (Hhit _ _ H2 Hs).
Qed.

Lemma toggle_flips_every_match_witness :
  (1 < occurrences 7
         [mkTask 7 "a" false; mkTask 8 "b" false; mkTask 7 "c" true])%nat /\
  (let state' :=
     taskReducer 9
       [mkTask 7 "a" false; mkTask 8 "b" false; mkTask 7 "c" true] (Toggle 7) in
   (forall k task,
      [mkTask 7 "a" false; mkTask 8 "b" false; mkTask 7 "c" true] !! k
      = Some task ->
      id task = 7 ->
      state' !! k
      = Some (mkTask (id task) (text task) (negb (completed task))))
   /\
   (forall k task,
      [mkTask 7 "a" false; mkTask 8 "b" false; mkTask 7 "c" true] !! k
      = Some task ->
      id task <> 7 -> state' !! k = Some task)
   /\
   (exists k1 k2 task1 task2,
      (k1 < k2)%nat /\
      [mkTask 7 "a" false; mkTask 8 "b" false; mkTask 7 "c" true] !! k1
      = Some task1 /\
      [mkTask 7 "a" false; mkTask 8 "b" false; mkTask 7 "c" true] !! k2
      = Some task2 /\
      id task1 = 7 /\ id task2 = 7 /\
      completed <$> state' !! k1 = Some (negb (completed task1)) /\
      completed <$> state' !! k2 = Some (negb (completed task2)))).
Proof.
  split; [vm_compute; lia|].
  apply (toggle_flips_every_match 9 7
           [mkTask 7 "a" false; mkTask 8 "b" false; mkTask 7 "c" true]).
  vm_compute; lia.
Defined.

(** ** Derived views *)

(** C8. The completed-tasks view is exactly the part of the store with
    [completed = true]: a task is in the view if and only if it is in the
    store and its [completed] flag is [true]. *)
Theorem completedTasks_exact (tasks : list Task) (task : Task) :
  task ∈ completedTasks tasks <-> task ∈ tasks /\ completed task = true.
Proof.
  unfold completedTasks. rewrite list_elem_of_filter, Is_true_true. tauto.
Qed.

Lemma sublist_keeps_order {A} (view store before between after : list A) (x y : A) :
  view `sublist_of` store ->
  view = before ++ x :: between ++ y :: after ->
  exists before' between' after',
    store = before' ++ x :: between' ++ y :: after'.
Proof.
  intros Hsub ->.
  apply sublist_app_l in Hsub as (k1 & k2 & -> & _ & Hsub).
  apply sublist_cons_l in Hsub as (k3 & k4 & -> & Hsub).
  apply sublist_app_l in Hsub as (k5 & k6 & -> & _ & Hsub).
  apply sublist_cons_l in Hsub as (k7 & k8 & -> & _).
  exists (k1 ++ k3), (k5 ++ k7), k8. by rewrite <-!app_assoc.
Qed.

(** C10. The filtered-tasks view and the completed-tasks view are each a
    subsequence of the store, so two tasks that appear in a view, one
    before the other, appear in that order in the store. *)
Theorem views_preserve_order (tasks : list Task) (term : string) :
  filteredTasks tasks term `sublist_of` tasks /\
  completedTasks tasks `sublist_of` tasks /\
  (forall view before x between y after,
     view = filteredTasks tasks term \/ view = completedTasks tasks ->
     view = before ++ x :: between ++ y :: after ->
     exists before' between' after',
       tasks = before' ++ x :: between' ++ y :: after').
Proof.
  assert (filteredTasks tasks term `sublist_of` tasks) as Hf
    by apply sublist_filter.
  assert (completedTasks tasks `sublist_of` tasks) as Hc
    by apply sublist_filter.
  do 2 (split; [done|]).
  intros view before x between y after [->| ->] Hview.
  - exact (sublist_keeps_order _ _ _ _ _ _ _ Hf Hview).
  - exact (sublist_keeps_order _ _ _ _ _ _ _ Hc Hview).
Qed.

(** ** The add handler *)

(** C5. When the entered text is blank after trimming, the add-task
    handler dispatches nothing and asks for no update: the component state,
    and with it the store and its length, is what it was. *)
Theorem addTask_blank (now : Z) (st : AppState) :
  trim (newTask st) = "" ->
  handler st ClickAddTask = [] /\
  handle st (now, ClickAddTask) = st /\
  length (tasks (handle st (now, ClickAddTask))) = length (tasks st).
Proof.
  intros Hblank.
  assert (handler st ClickAddTask = []) as Hnone.
  { cbn [handler]. unfold addTask. by rewrite Hblank. }
  assert (handle st (now, ClickAddTask) = st) as Hsame.
  { unfold handle. cbn [fst snd]. by rewrite Hnone. }
  by rewrite Hsame.
Qed.

Lemma addTask_blank_witness :
  trim (newTask (mkAppState "   " "" [mkTask 1 "a" false])) = "" /\
  (handler (mkAppState "   " "" [mkTask 1 "a" false]) ClickAddTask = [] /\
   handle (mkAppState "   " "" [mkTask 1 "a" false]) (5, ClickAddTask)
   = mkAppState "   " "" [mkTask 1 "a" false] /\
   length (tasks (handle (mkAppState "   " "" [mkTask 1 "a" false])
                    (5, ClickAddTask)))
   = length (tasks (mkAppState "   " "" [mkTask 1 "a" false]))).
Proof.
  split; [reflexivity|].
  apply (addTask_blank 5 (mkAppState "   " "" [mkTask 1 "a" false])).
  reflexivity.
Defined.

Example addTask_empty_text :
  handle (mkAppState "" "" [mkTask 1 "a" false]) (5, ClickAddTask)
  = mkAppState "" "" [mkTask 1 "a" false].
Proof. reflexivity. Qed.

(** ** Ids over a session *)

Lemma handle_ids (st : AppState) (ev : event) :
  id <$> tasks (handle st ev) = id <$> tasks st \/
  id <$> tasks (handle st ev) = (id <$> tasks st) ++ [ev.1].
Proof.
  destruct ev as [now [value| |i|value]]; unfold handle; cbn [fst snd handler].
  - by left.
  - unfold addTask. destruct (truthy (trim (newTask st))); [|by left].
    right. cbn. by rewrite fmap_app.
  - left. exact (toggle_ids now i (tasks st)).
  - by left.
Qed.

Lemma session_ids_unique_from (evs : list event) : forall st : AppState,
  NoDup (id <$> tasks st) ->
  (forall i t, i ∈ id <$> tasks st -> t ∈ evs.*1 -> i < t) ->
  clock_strict evs ->
  NoDup (id <$> tasks (foldl handle st evs)).
Proof.
  unfold clock_strict.
  induction evs as [|ev evs IH]; intros st Hnodup Hfresh Hclock; [done|].
  rewrite fmap_cons in Hclock. apply StronglySorted_inv in Hclock as [Hclock Hlater].
  rewrite Forall_forall in Hlater.
  cbn [foldl]. apply IH; [| |done].
  - destruct (handle_ids st ev) as [->| ->]; [done|].
    apply NoDup_app. split; [done|]. split; [|apply NoDup_singleton].
    intros i Hi ->%list_elem_of_singleton.
    specialize (Hfresh (ev.1) (ev.1) Hi). rewrite fmap_cons in Hfresh.
    specialize (Hfresh (list_elem_of_here _ _)). lia.
  - intros i t Hi Ht.
    destruct (handle_ids st ev) as [Hids|Hids]; rewrite Hids in Hi.
    + apply Hfresh; [done|]. rewrite fmap_cons. by apply list_elem_of_further.
    + apply elem_of_app in Hi as [Hi| ->%list_elem_of_singleton]; [|by apply Hlater].
      apply Hfresh; [done|]. rewrite fmap_cons. by apply list_elem_of_further.
Qed.

(** X6. While no two events of a session share a clock reading, the ids of
    the store are pairwise distinct. *)
Lemma session_ids_unique_strict_clock (evs : list event) :
  clock_strict evs -> NoDup (id <$> tasks (session evs)).
Proof.
  intros Hclock. apply session_ids_unique_from; [constructor| |done].
  intros i t Hi. cbn in Hi. by apply elem_of_nil in Hi.
Qed.

(** C4. Uniqueness of ids does not survive two tasks added within one
    millisecond: the session that types "a", clicks Add, types "b" and
    clicks Add again, all at the clock reading 1700000000000 (a clock that
    never runs backwards), ends in a store of two tasks with the same id. *)
Theorem same_millisecond_ids_collide :
  let evs := [(1700000000000, ChangeNewTask "a"); (1700000000000, ClickAddTask);
              (1700000000000, ChangeNewTask "b"); (1700000000000, ClickAddTask)] in
  clock_monotone evs /\
  tasks (session evs)
  = [mkTask 1700000000000 "a" false; mkTask 1700000000000 "b" false] /\
  ~ NoDup (id <$> tasks (session evs)).
Proof.
  intros evs. split; [|split].
  - unfold clock_monotone, evs. cbn. repeat constructor; lia.
  - reflexivity.
  - change (id <$> tasks (session evs)) with [1700000000000; 1700000000000].
    intros Hnodup. apply NoDup_cons in Hnodup as [Hnotin _].
    apply Hnotin. constructor.
Qed.

(** ** The scenario of the specification *)

Example scenario_buy_milk :
  let st := session [(100, ChangeNewTask "buy milk"); (101, ClickAddTask)] in
  tasks st = [mkTask 101 "buy milk" false] /\
  let st' := handle st (102, ClickToggle 101) in
  tasks st' = [mkTask 101 "buy milk" true] /\
  completedTasks (tasks st') = [mkTask 101 "buy milk" true] /\
  filteredTasks (tasks st') "milk" = [mkTask 101 "buy milk" true] /\
  filteredTasks (tasks st') "MILK" = [mkTask 101 "buy milk" true] /\
  filteredTasks (tasks st') "eggs" = [].
Proof. vm_compute. repeat split. Qed.

(** * Further properties of the component *)

(** ** What the add handler accepts *)

Section Blank.

Implicit Types (s : string) (c : ascii).

Lemma trimStart_empty s : trimStart s = "" <-> allWhiteSpace s = true.
Proof.
  induction s as [|c s IH]; [done|]. cbn [trimStart allWhiteSpace].
  destruct (isWhiteSpace c); [exact IH | by split].
Qed.

Lemma trimEnd_empty s : trimEnd s = "" <-> allWhiteSpace s = true.
Proof.
  induction s as [|c s IH]; [done|]. cbn [trimEnd allWhiteSpace].
  destruct (trimEnd s) as [|d r].
  - destruct IH as [IH _]. rewrite IH by done.
    by destruct (isWhiteSpace c).
  - destruct (allWhiteSpace s).
    + destruct IH as [_ IH]. by specialize (IH eq_refl).
    + rewrite andb_false_r. by split.
Qed.

Lemma allWhiteSpace_trimStart s :
  allWhiteSpace (trimStart s) = allWhiteSpace s.
Proof.
  induction s as [|c s IH]; [done|]. cbn [trimStart].
  destruct (isWhiteSpace c) eqn:Hc; [|done].
  cbn [allWhiteSpace]. by rewrite Hc.
Qed.

Lemma trim_empty s : trim s = "" <-> allWhiteSpace s = true.
Proof. unfold trim. by rewrite trimEnd_empty, allWhiteSpace_trimStart. Qed.

Lemma truthy_trim s : truthy (trim s) = negb (allWhiteSpace s).
Proof.
  destruct (allWhiteSpace s) eqn:Hs.
  - apply trim_empty in Hs. by rewrite Hs.
  - destruct (trim s) eqn:Ht; [|done].
    apply trim_empty in Ht. congruence.
Qed.

Lemma addTask_cases s :
  addTask s
  = if allWhiteSpace s then [] else [Dispatch (Add s); SetNewTask ""].
Proof. unfold addTask. rewrite truthy_trim. by destruct (allWhiteSpace s). Qed.

End Blank.

(** X1. The add handler does nothing exactly when every code unit of the
    entered text is white space (the empty text included); any other text
    is dispatched as it was typed and the entry field is cleared. *)
Theorem addTask_rejects_exactly_blank (s : string) :
  (addTask s = [] <-> allWhiteSpace s = true) /\
  (addTask s = [Dispatch (Add s); SetNewTask ""] <-> allWhiteSpace s = false).
Proof.
  rewrite addTask_cases.
  destruct (allWhiteSpace s); by split; split.
Qed.

Lemma handle_add_accepted (now : Z) (st : AppState) :
  allWhiteSpace (newTask st) = false ->
  handle st (now, ClickAddTask)
  = {| newTask := ""; searchTerm := searchTerm st;
       tasks := tasks st ++ [mkTask now (newTask st) false] |}.
Proof.
  intros Hs. unfold handle. cbn [fst snd handler].
  by rewrite addTask_cases, Hs.
Qed.

Lemma handle_add_rejected (now : Z) (st : AppState) :
  allWhiteSpace (newTask st) = true -> handle st (now, ClickAddTask) = st.
Proof.
  intros Hs. unfold handle. cbn [fst snd handler].
  by rewrite addTask_cases, Hs.
Qed.

(** X2. Whether a second click on Add Task adds a second task depends on
    the render between the clicks.  When the component has rendered after
    the first click, the second click finds the entry field cleared (or the
    same blank text) and changes nothing.  When both clicks run the
    callback of one render, that callback still holds the text it was
    closed over, and a text that is not blank is added twice. *)
Theorem double_click_and_render (now now' : Z) (st : AppState) :
  handle (handle st (now, ClickAddTask)) (now', ClickAddTask)
  = handle st (now, ClickAddTask) /\
  addTask_twice_one_render now now' st
  = if allWhiteSpace (newTask st) then st
    else {| newTask := ""; searchTerm := searchTerm st;
            tasks := tasks st ++ [mkTask now (newTask st) false;
                                  mkTask now' (newTask st) false] |}.
Proof.
  unfold addTask_twice_one_render. rewrite addTask_cases.
  destruct (allWhiteSpace (newTask st)) eqn:Hs.
  - split; [|by destruct st].
    rewrite (handle_add_rejected now st Hs).
    exact (handle_add_rejected now' st Hs).
  - split.
    + rewrite (handle_add_accepted now st Hs). by apply handle_add_rejected.
    + cbn. by rewrite <-app_assoc.
Qed.

(** X3. Whatever the user does, the handlers dispatch only two kinds of
    action: [add] with the entered text, which is then not blank, or
    [toggle]; the [filter] action and unknown actions are never
    dispatched. *)
Theorem handlers_dispatch_add_or_toggle
    (st : AppState) (i : interaction) (a : action) :
  Dispatch a ∈ handler st i ->
  (a = Add (newTask st) /\ allWhiteSpace (newTask st) = false) \/
  (exists id0, a = Toggle id0).
Proof.
  destruct i as [value| |id0|value]; cbn [handler].
  - intros Hin%list_elem_of_singleton. discriminate.
  - rewrite addTask_cases. destruct (allWhiteSpace (newTask st)) eqn:Hs.
    + intros Hin. by apply elem_of_nil in Hin.
    + intros [Hin|Hin%list_elem_of_singleton]%elem_of_cons; [|discriminate].
      left. split; [congruence | done].
  - intros Hin%list_elem_of_singleton. right. exists id0. congruence.
  - unfold handleSearch. intros Hin%list_elem_of_singleton. discriminate.
Qed.

Lemma handlers_dispatch_add_or_toggle_witness :
  Dispatch (Add " tea") ∈ handler (mkAppState " tea" "" []) ClickAddTask /\
  ((Add " tea" = Add (newTask (mkAppState " tea" "" [])) /\
    allWhiteSpace (newTask (mkAppState " tea" "" [])) = false) \/
   (exists id0, Add " tea" = Toggle id0)).
Proof.
  assert (Dispatch (Add " tea") ∈ handler (mkAppState " tea" "" []) ClickAddTask)
    as Hin by (vm_compute; constructor).
  split; [exact Hin|].
  exact (handlers_dispatch_add_or_toggle
           (mkAppState " tea" "" []) ClickAddTask (Add " tea") Hin).
Defined.

(** ** What a session keeps *)

Lemma toggle_keys (now i : Z) (state : list Task) :
  taskKey <$> taskReducer now state (Toggle i) = taskKey <$> state.
Proof.
  induction state as [|task state IH]; [done|].
  rewrite toggle_cons, !fmap_cons, IH. by destruct (id task =? i)%Z.
Qed.

(** One event leaves the keys of the store as they are or appends the key
    of one task: the clock reading and the entered text, which is not
    blank. *)
Lemma handle_keys (st : AppState) (ev : event) :
  taskKey <$> tasks (handle st ev) = taskKey <$> tasks st \/
  (allWhiteSpace (newTask st) = false /\
   taskKey <$> tasks (handle st ev)
   = (taskKey <$> tasks st) ++ [(ev.1, newTask st)]).
Proof.
  destruct ev as [now [value| |i|value]].
  - by left.
  - destruct (allWhiteSpace (newTask st)) eqn:Hs.
    + left. by rewrite handle_add_rejected.
    + right. split; [done|]. rewrite handle_add_accepted by done.
      cbn [tasks]. by rewrite fmap_app.
  - left. exact (toggle_keys now i (tasks st)).
  - by left.
Qed.

Lemma session_app (evs evs' : list event) :
  session (evs ++ evs') = foldl handle (session evs) evs'.
Proof. apply foldl_app. Qed.

Lemma foldl_handle_keys_invariant (P : list (Z * string) -> Prop) :
  (forall keys key, P keys -> allWhiteSpace key.2 = false -> P (keys ++ [key])) ->
  forall evs st,
    P (taskKey <$> tasks st) -> P (taskKey <$> tasks (foldl handle st evs)).
Proof.
  intros Hstep evs. induction evs as [|ev evs IH]; intros st HP; [done|].
  cbn [foldl]. apply IH.
  destruct (handle_keys st ev) as [->|[Hs ->]]; [done|]. by apply Hstep.
Qed.

(** X4. No session puts a blank task in the store: after any sequence of
    events, the text of every stored task has a code unit that is not
    white space. *)
Theorem session_texts_not_blank (evs : list event) :
  Forall (fun task => allWhiteSpace (text task) = false) (tasks (session evs)).
Proof.
  pose proof (foldl_handle_keys_invariant
                (Forall (fun key => allWhiteSpace key.2 = false))) as Hinv.
  specialize (Hinv ltac:(intros keys key Hk Hs; apply Forall_app; split;
                           [done | by constructor]) evs initial (Forall_nil_2 _)).
  apply Forall_fmap in Hinv. exact Hinv.
Qed.

Lemma handle_keys_prefix (st : AppState) (ev : event) :
  taskKey <$> tasks st `prefix_of` taskKey <$> tasks (handle st ev).
Proof.
  destruct (handle_keys st ev) as [->|[_ ->]]; [done|]. by apply prefix_app_r.
Qed.

Lemma foldl_handle_keys_prefix (evs : list event) : forall st : AppState,
  taskKey <$> tasks st `prefix_of` taskKey <$> tasks (foldl handle st evs).
Proof.
  induction evs as [|ev evs IH]; intros st; [done|].
  cbn [foldl]. etrans; [apply handle_keys_prefix | apply IH].
Qed.

(** X5. The store only grows at its end: whatever events follow, the tasks
    a session has stored stay in place with their id and text (only their
    [completed] flag can change), and no task is ever removed. *)
Theorem session_store_append_only (evs evs' : list event) :
  taskKey <$> tasks (session evs)
    `prefix_of` taskKey <$> tasks (session (evs ++ evs')) /\
  (length (tasks (session evs)) <= length (tasks (session (evs ++ evs'))))%nat.
Proof.
  assert (taskKey <$> tasks (session evs)
            `prefix_of` taskKey <$> tasks (session (evs ++ evs'))) as Hpre.
  { rewrite session_app. apply foldl_handle_keys_prefix. }
  split; [done|].
  apply prefix_length in Hpre. by rewrite !length_fmap in Hpre.
Qed.

(** ** Ids and the clock *)

Lemma session_ids_unique_strict_clock_witness :
  clock_strict [(100, ChangeNewTask "a"); (101, ClickAddTask);
                (102, ChangeNewTask "b"); (103, ClickAddTask)] /\
  NoDup (id <$> tasks (session [(100, ChangeNewTask "a"); (101, ClickAddTask);
                                (102, ChangeNewTask "b"); (103, ClickAddTask)])).
Proof.
  assert (clock_strict [(100, ChangeNewTask "a"); (101, ClickAddTask);
                        (102, ChangeNewTask "b"); (103, ClickAddTask)])
    as Hclock by (unfold clock_strict; cbn; repeat constructor; lia).
  split; [exact Hclock|].
  exact (session_ids_unique_strict_clock _ Hclock).
Defined.

Lemma session_ids_sorted_from (evs : list event) : forall st : AppState,
  StronglySorted Z.le (id <$> tasks st) ->
  (forall i t, i ∈ id <$> tasks st -> t ∈ evs.*1 -> i <= t) ->
  clock_monotone evs ->
  StronglySorted Z.le (id <$> tasks (foldl handle st evs)).
Proof.
  unfold clock_monotone.
  induction evs as [|ev evs IH]; intros st Hsorted Hbelow Hclock; [done|].
  rewrite fmap_cons in Hclock, Hbelow.
  apply StronglySorted_inv in Hclock as [Hclock Hlater].
  rewrite Forall_forall in Hlater.
  cbn [foldl]. apply IH; [| |done].
  - destruct (handle_ids st ev) as [->| ->]; [done|].
    apply StronglySorted_app_2; [|done|repeat constructor].
    intros i t Hi ->%list_elem_of_singleton.
    apply Hbelow; [done | constructor].
  - intros i t Hi Ht.
    destruct (handle_ids st ev) as [Hids|Hids]; rewrite Hids in Hi.
    + apply Hbelow; [done | by constructor].
    + apply elem_of_app in Hi as [Hi| ->%list_elem_of_singleton];
        [apply Hbelow; [done | by constructor] | by apply Hlater].
Qed.

(** X7. While the clock never runs backwards, the ids of the store are in
    non-decreasing order: the order of the store is the order of
    creation. *)
Theorem session_ids_sorted (evs : list event) :
  clock_monotone evs ->
  StronglySorted Z.le (id <$> tasks (session evs)).
Proof.
  intros Hclock. apply session_ids_sorted_from; [constructor| |done].
  intros i t Hi. cbn in Hi. by apply elem_of_nil in Hi.
Qed.

Lemma session_ids_sorted_witness :
  clock_monotone [(100, ChangeNewTask "a"); (100, ClickAddTask);
                  (100, ChangeNewTask "b"); (105, ClickAddTask)] /\
  StronglySorted Z.le
    (id <$> tasks (session [(100, ChangeNewTask "a"); (100, ClickAddTask);
                            (100, ChangeNewTask "b"); (105, ClickAddTask)])).
Proof.
  assert (clock_monotone [(100, ChangeNewTask "a"); (100, ClickAddTask);
                          (100, ChangeNewTask "b"); (105, ClickAddTask)])
    as Hclock by (unfold clock_monotone; cbn; repeat constructor; lia).
  split; [exact Hclock|].
  exact (session_ids_sorted _ Hclock).
Defined.

(** ** How toggling, adding and the views compose *)

(** X8. Two toggle actions commute: the store after toggling [i] and then
    [j] is the store after toggling [j] and then [i]. *)
Theorem toggle_commute (now now' i j : Z) (state : list Task) :
  taskReducer now (taskReducer now' state (Toggle i)) (Toggle j)
  = taskReducer now' (taskReducer now state (Toggle j)) (Toggle i).
Proof.
  induction state as [|task state IH]; [done|].
  rewrite !toggle_cons, IH. f_equal.
  destruct (id task =? i)%Z eqn:Hi, (id task =? j)%Z eqn:Hj;
    cbn [toggleCompleted id]; by rewrite ?Hi, ?Hj.
Qed.

(** X9. Toggling never changes which rows the search shows: filtering the
    toggled store gives the toggled filtered list, of the same length. *)
Theorem toggle_keeps_visible_rows (now i : Z) (state : list Task) (term : string) :
  filteredTasks (taskReducer now state (Toggle i)) term
  = taskReducer now (filteredTasks state term) (Toggle i) /\
  length (filteredTasks (taskReducer now state (Toggle i)) term)
  = length (filteredTasks state term).
Proof.
  assert (filteredTasks (taskReducer now state (Toggle i)) term
          = taskReducer now (filteredTasks state term) (Toggle i)) as Heq.
  { unfold filteredTasks. induction state as [|task state IH]; [done|].
    rewrite toggle_cons, !filter_cons, IH.
    assert (text (if (id task =? i)%Z then toggleCompleted task else task)
            = text task) as -> by by destruct (id task =? i)%Z.
    case_decide; [|done]. by rewrite toggle_cons. }
  split; [done|]. by rewrite Heq, toggle_length.
Qed.

Lemma completedTasks_absent_toggle (now i : Z) (state : list Task) :
  Forall (fun other => id other <> i) state ->
  completedTasks (taskReducer now state (Toggle i)) = completedTasks state.
Proof. intros H. by rewrite toggle_absent. Qed.

(** X10. In a store where the id [i] belongs to one task only, toggling
    [i] moves that task into the completed view when it was open and out of
    it when it was completed; the rest of the view stays as it was. *)
Theorem toggle_moves_task_between_views
    (now i : Z) (before after : list Task) (task : Task) :
  id task = i ->
  Forall (fun other => id other <> i) before ->
  Forall (fun other => id other <> i) after ->
  completedTasks (taskReducer now (before ++ task :: after) (Toggle i))
  = completedTasks before
    ++ (if completed task then [] else [mkTask (id task) (text task) true])
    ++ completedTasks after.
Proof.
  intros Hid Hb Ha.
  rewrite toggle_app, toggle_cons, !toggle_absent by done.
  destruct (Z.eqb_spec (id task) i) as [_|Hne]; [|done].
  unfold completedTasks. rewrite filter_app, filter_cons. f_equal.
  destruct task as [k txt []]; cbn; by case_decide.
Qed.

Lemma toggle_moves_task_between_views_witness :
  id (mkTask 2 "b" false) = 2 /\
  Forall (fun other => id other <> 2) [mkTask 1 "a" true] /\
  Forall (fun other => id other <> 2) [mkTask 3 "c" false] /\
  completedTasks
    (taskReducer 9 ([mkTask 1 "a" true] ++ mkTask 2 "b" false :: [mkTask 3 "c" false])
       (Toggle 2))
  = completedTasks [mkTask 1 "a" true]
    ++ (if completed (mkTask 2 "b" false) then []
        else [mkTask (id (mkTask 2 "b" false)) (text (mkTask 2 "b" false)) true])
    ++ completedTasks [mkTask 3 "c" false].
Proof.
  assert (Forall (fun other => id other <> 2) [mkTask 1 "a" true]) as Hb
    by (repeat constructor; cbn; lia).
  assert (Forall (fun other => id other <> 2) [mkTask 3 "c" false]) as Ha
    by (repeat constructor; cbn; lia).
  split; [reflexivity|]. split; [exact Hb|]. split; [exact Ha|].
  exact (toggle_moves_task_between_views 9 2
           [mkTask 1 "a" true] [mkTask 3 "c" false] (mkTask 2 "b" false)
           eq_refl Hb Ha).
Defined.

(** X11. A task just added is open: the add action leaves the completed
    view as it was, and it extends the filtered view by the new task
    exactly when the new text contains the term up to case. *)
Theorem add_and_the_views (now : Z) (state : list Task) (s term : string) :
  completedTasks (taskReducer now state (Add s)) = completedTasks state /\
  filteredTasks (taskReducer now state (Add s)) term
  = filteredTasks state term
    ++ (if includes (toLowerCase s) (toLowerCase term)
        then [mkTask now s false] else []).
Proof.
  cbn [taskReducer]. unfold completedTasks, filteredTasks.
  rewrite !filter_app, !filter_cons, !filter_nil. cbn [completed text].
  split.
  - case_decide; [done | by rewrite app_nil_r].
  - destruct (includes (toLowerCase s) (toLowerCase term)); by case_decide.
Qed.

Lemma filter_sublist_impl {A} (P Q : A -> Prop)
    `{!forall x, Decision (P x)} `{!forall x, Decision (Q x)} (l : list A) :
  (forall x, P x -> Q x) -> filter P l `sublist_of` filter Q l.
Proof.
  intros HPQ. induction l as [|x l IH]; [done|].
  rewrite !filter_cons. destruct (decide (P x)) as [HP|HP].
  - rewrite decide_True by auto. by constructor.
  - destruct (decide (Q x)); [by constructor | done].
Qed.

(** X14. The two views commute: the completed tasks among the rows shown
    are the rows shown among the completed tasks. *)
Theorem views_commute (tasks : list Task) (term : string) :
  completedTasks (filteredTasks tasks term)
  = filteredTasks (completedTasks tasks) term.
Proof.
  unfold completedTasks, filteredTasks.
  rewrite !list_filter_filter. apply list_filter_iff. intros task. tauto.
Qed.

(** X15. The toggle button of a row always changes the store: for a task
    shown in the filtered list, the toggle action with its id returns a
    store different from the one it was given. *)
Theorem row_toggle_changes_store
    (now : Z) (tasks : list Task) (term : string) (task : Task) :
  task ∈ filteredTasks tasks term ->
  taskReducer now tasks (Toggle (id task)) <> tasks.
Proof.
  intros [_ Hin]%list_elem_of_filter Heq.
  apply list_elem_of_lookup in Hin as [k Hk].
  pose proof (toggle_lookup now (id task) tasks k) as Hlook.
  cbv beta zeta in Hlook. rewrite Heq, Hk in Hlook. cbn in Hlook. rewrite Z.eqb_refl in Hlook.
  injection Hlook as Hflip. apply (f_equal completed) in Hflip.
  cbn in Hflip. by destruct (completed task).
Qed.

Lemma row_toggle_changes_store_witness :
  mkTask 1 "Buy MILK" false
    ∈ filteredTasks [mkTask 1 "Buy MILK" false; mkTask 2 "eggs" true] "milk" /\
  taskReducer 9 [mkTask 1 "Buy MILK" false; mkTask 2 "eggs" true]
    (Toggle (id (mkTask 1 "Buy MILK" false)))
  <> [mkTask 1 "Buy MILK" false; mkTask 2 "eggs" true].
Proof.
  assert (mkTask 1 "Buy MILK" false
            ∈ filteredTasks [mkTask 1 "Buy MILK" false; mkTask 2 "eggs" true]
                "milk") as Hin by (vm_compute; constructor).
  split; [exact Hin|].
  exact (row_toggle_changes_store 9
           [mkTask 1 "Buy MILK" false; mkTask 2 "eggs" true] "milk"
           (mkTask 1 "Buy MILK" false) Hin).
Defined.

(** ** The layout effect *)

Lemma latestTaskEffect_last (tasks : list Task) :
  latestTaskEffect tasks
  = match last tasks with
    | Some task => Logged (text task)
    | None => Silent
    end.
Proof.
  unfold latestTaskEffect. rewrite last_lookup, Nat.sub_1_r.
  destruct tasks as [|task tasks]; [done|].
  cbn [length Nat.ltb Nat.leb pred].
  destruct ((task :: tasks) !! length tasks) eqn:Hlook; [done|].
  apply lookup_ge_None in Hlook. cbn in Hlook. lia.
Qed.

(** X16. The layout effect never reads past the end of the store: it is
    silent on the empty store and otherwise logs the text of the last
    task; the [TypeError] of an undefined element cannot happen. *)
Theorem latestTaskEffect_logs_last (tasks : list Task) :
  latestTaskEffect tasks <> TypeError /\
  latestTaskEffect tasks
  = match last tasks with
    | Some task => Logged (text task)
    | None => Silent
    end.
Proof.
  split; [|apply latestTaskEffect_last].
  rewrite latestTaskEffect_last. by destruct (last tasks).
Qed.

(** X17. After an accepted click on Add, the layout effect logs the text
    that was entered. *)
Theorem latestTaskEffect_after_add (now : Z) (st : AppState) :
  allWhiteSpace (newTask st) = false ->
  latestTaskEffect (tasks (handle st (now, ClickAddTask))) = Logged (newTask st).
Proof.
  intros Hs. rewrite handle_add_accepted by done. cbn [tasks].
  by rewrite latestTaskEffect_last, last_snoc.
Qed.

Lemma latestTaskEffect_after_add_witness :
  allWhiteSpace (newTask (mkAppState "tea" "" [mkTask 1 "a" true])) = false /\
  latestTaskEffect
    (tasks (handle (mkAppState "tea" "" [mkTask 1 "a" true]) (7, ClickAddTask)))
  = Logged (newTask (mkAppState "tea" "" [mkTask 1 "a" true])).
Proof.
  split; [reflexivity|].
  exact (latestTaskEffect_after_add 7
           (mkAppState "tea" "" [mkTask 1 "a" true]) eq_refl).
Defined.

(** ** The optimistic overlay *)

(** X18. The Add Optimistic Task button never shows a task: what
    [addOptimisticTask] passes to [setOptimisticTasks] is a function, the
    reducer finds no [type] on it and returns the overlay it was given, so
    after any number of clicks the overlay is still empty. *)
Theorem optimistic_button_shows_nothing (readings : list Z) :
  optimisticTasks ((fun now => (addOptimisticTask now).2) <$> readings) = [].
Proof.
  unfold optimisticTasks.
  induction readings as [|now readings IH] using rev_ind; [done|].
  by rewrite fmap_app, foldl_app, IH.
Qed.

(** X19. Fed with [add] actions, the overlay reducer builds the list of
    their tasks, in the order of the actions. *)
Theorem optimistic_adds_accumulate (newTasks : list Task) :
  optimisticTasks (OverlayAdd <$> newTasks) = newTasks.
Proof.
  unfold optimisticTasks.
  induction newTasks as [|task newTasks IH] using rev_ind; [done|].
  rewrite fmap_app, foldl_app, IH. reflexivity.
Qed.

(** ** The debug label *)

Section Label.

Lemma string_length_append (s t : string) :
  String.length (s +:+ t) = (String.length s + String.length t)%nat.
Proof.
  induction s as [|c s IH]; [done|]. rewrite append_cons. cbn. by rewrite IH.
Qed.

Lemma append_cancel_r (t : string) : forall s s' : string,
  s +:+ t = s' +:+ t -> s = s'.
Proof.
  induction s as [|c s IH]; intros [|c' s'] H.
  - done.
  - apply (f_equal String.length) in H.
    rewrite append_nil_l, append_cons in H. cbn in H.
    rewrite string_length_append in H. lia.
  - apply (f_equal String.length) in H.
    rewrite append_nil_l, append_cons in H. cbn in H.
    rewrite string_length_append in H. lia.
  - rewrite !append_cons in H. injection H as -> H. f_equal. by apply IH.
Qed.

Lemma numberToString_inj (n m : nat) :
  numberToString n = numberToString m -> n = m.
Proof.
  unfold numberToString. intros H.
  apply (f_equal NilEmpty.uint_of_string) in H.
  rewrite !NilEmpty.usu in H. injection H as H.
  by apply Unsigned.to_uint_inj.
Qed.

Lemma count_label_not_empty_label (n : nat) :
  numberToString n +:+ " tasks" <> "No tasks".
Proof.
  change "No tasks" with ("No" +:+ " tasks").
  intros H%append_cancel_r. unfold numberToString in H.
  apply (f_equal NilEmpty.uint_of_string) in H.
  rewrite NilEmpty.usu in H. discriminate.
Qed.

End Label.

(** X20. The debug label tells the size of the store: it is "No tasks"
    for the empty store only, and two stores have the same label exactly
    when they have the same number of tasks. *)
Theorem taskLoggerLabel_tells_the_count (tasks tasks' : list Task) :
  (taskLoggerLabel tasks = "No tasks" <-> tasks = []) /\
  (taskLoggerLabel tasks = taskLoggerLabel tasks' <-> length tasks = length tasks').
Proof.
  split.
  - unfold taskLoggerLabel. destruct tasks as [|task tasks]; [done|].
    cbn [length Nat.ltb Nat.leb]. split; [|done].
    by intros H%count_label_not_empty_label.
  - split; [|unfold taskLoggerLabel; by intros ->].
    unfold taskLoggerLabel.
    destruct tasks as [|task tasks], tasks' as [|task' tasks'];
      cbn [length Nat.ltb Nat.leb].
    + done.
    + intros H. symmetry in H. by apply count_label_not_empty_label in H.
    + by intros H%count_label_not_empty_label.
    + by intros H%append_cancel_r%numberToString_inj.
Qed.

Example taskLoggerLabel_values :
  taskLoggerLabel [] = "No tasks" /\
  taskLoggerLabel [mkTask 1 "a" false] = "1 tasks" /\
  taskLoggerLabel (replicate 12 (mkTask 1 "a" false)) = "12 tasks".
Proof. vm_compute. repeat split. Qed.

(** * The search and the case of letters *)

(** ** Lists of code units *)

Section CodeUnits.

Implicit Types (s t p : list N) (u : N).

Lemma startsWith_prefix p : forall s,
  Utf16.startsWith s p = true <-> exists rest, s = p ++ rest.
Proof.
  induction p as [|a p IH]; intros s; cbn [Utf16.startsWith].
  - split; [intros _; by exists s | done].
  - destruct s as [|b s]; [split; [done | by intros [rest ?]]|].
    destruct (N.eqb_spec a b) as [->|Hne].
    + rewrite IH. split; intros [rest H]; exists rest.
      * cbn. congruence.
      * cbn in H. congruence.
    + split; [done|]. intros [rest H]. cbn in H. congruence.
Qed.

Lemma includes_infix p : forall s,
  Utf16.includes s p = true <-> exists pre post, s = pre ++ p ++ post.
Proof.
  induction s as [|u s IH]; cbn [Utf16.includes].
  - rewrite orb_false_r, startsWith_prefix. split.
    + intros [rest H]. by exists [], rest.
    + intros (pre & post & H). symmetry in H.
      apply app_eq_nil in H as [_ H]. by exists post.
  - rewrite orb_true_iff, IH, startsWith_prefix. split.
    + intros [[rest H]|(pre & post & H)].
      * by exists [], rest.
      * exists (u :: pre), post. cbn. congruence.
    + intros (pre & post & H). destruct pre as [|u' pre].
      * left. by exists post.
      * right. cbn in H. injection H as _ H. by exists pre, post.
Qed.


Lemma includes_middle s pre p post :
  Utf16.includes s (pre ++ p ++ post) = true -> Utf16.includes s p = true.
Proof.
  rewrite !includes_infix. intros (a & b & ->).
  exists (a ++ pre), (post ++ b). by rewrite <-!app_assoc.
Qed.

(** Below 256 there is no capital sigma, and the host's mapping works unit
    by unit. *)
Lemma toLowerCase_from_below_256 s :
  Utf16.below_256 s ->
  forall afterCased,
    Utf16.toLowerCase_from afterCased s = Utf16.toLowerCase_unit <$> s.
Proof.
  induction 1 as [|u s Hu _ IH]; intros afterCased; [done|].
  cbn [Utf16.toLowerCase_from]. rewrite IH, fmap_cons.
  destruct (N.eqb_spec u Utf16.capitalSigma) as [->|_]; [|done].
  unfold Utf16.capitalSigma in Hu. lia.
Qed.

Lemma toLowerCase_below_256 s :
  Utf16.below_256 s -> Utf16.toLowerCase s = Utf16.toLowerCase_unit <$> s.
Proof. intros H. by apply toLowerCase_from_below_256. Qed.

(** Below 256, two units have the same lower-case form exactly when they
    are the same letter up to case: checked on the 256 x 256 pairs. *)
Lemma same_letter_table :
  forallb
    (fun i =>
       forallb
         (fun j =>
            Bool.eqb
              (Utf16.same_letter (N.of_nat i) (N.of_nat j))
              (Utf16.toLowerCase_unit (N.of_nat i)
               =? Utf16.toLowerCase_unit (N.of_nat j))%N)
         (seq 0 256))
    (seq 0 256)
  = true.
Proof. vm_compute. reflexivity. Qed.

Lemma same_letter_lower u v :
  (u < 256)%N -> (v < 256)%N ->
  Utf16.same_letter u v = true
  <-> Utf16.toLowerCase_unit u = Utf16.toLowerCase_unit v.
Proof.
  intros Hu Hv. pose proof same_letter_table as Htable.
  rewrite forallb_forall in Htable.
  specialize (Htable (N.to_nat u)). rewrite in_seq in Htable.
  specialize (Htable ltac:(lia)). rewrite forallb_forall in Htable.
  specialize (Htable (N.to_nat v)). rewrite in_seq in Htable.
  specialize (Htable ltac:(lia)). rewrite !N2Nat.id in Htable.
  apply Bool.eqb_prop in Htable. rewrite Htable. apply N.eqb_eq.
Qed.

Lemma eq_up_to_case_lower s : forall t,
  Utf16.below_256 s -> Utf16.below_256 t ->
  Utf16.eq_up_to_case s t
  <-> Utf16.toLowerCase_unit <$> s = Utf16.toLowerCase_unit <$> t.
Proof.
  unfold Utf16.eq_up_to_case, Utf16.below_256.
  induction s as [|u s IH]; intros [|v t] Hs Ht.
  - split; [done | constructor].
  - split; [by inv 1 | done].
  - split; [by inv 1 | done].
  - apply Forall_cons in Hs as [Hu Hs]. apply Forall_cons in Ht as [Hv Ht].
    rewrite Forall2_cons, !fmap_cons, (same_letter_lower u v Hu Hv), (IH t Hs Ht).
    split; [intros [-> ->]; done | intros [= -> ->]; done].
Qed.


End CodeUnits.

(** ** The filter pipeline *)




(** X12. A longer search term only narrows the list, as long as the term
    is made of code units below 256: the rows shown for a term that
    contains [term] are among the rows shown for [term], in the same order,
    whatever the texts of the store. *)
Theorem longer_term_narrows_below_256
    (tasks : list Utf16.Task) (pre term post : list N) :
  Utf16.below_256 pre -> Utf16.below_256 term -> Utf16.below_256 post ->
  Utf16.filteredTasks tasks (pre ++ term ++ post)
    `sublist_of` Utf16.filteredTasks tasks term.
Proof.
  intros Hpre Hterm Hpost.
  apply filter_sublist_impl. intros task Hlong.
  apply Is_true_true in Hlong. apply Is_true_true.
  assert (Utf16.below_256 (pre ++ term ++ post)) as Hall
    by (unfold Utf16.below_256; rewrite !Forall_app; repeat split; assumption).
  rewrite (toLowerCase_below_256 _ Hall), !fmap_app in Hlong.
  rewrite (toLowerCase_below_256 term Hterm).
  by eapply includes_middle.
Qed.

Lemma longer_term_narrows_below_256_witness :
  Utf16.below_256 (units "y ") /\ Utf16.below_256 (units "mi") /\
  Utf16.below_256 (units "lk") /\
  Utf16.filteredTasks
    [Utf16.mkTask 1 (units "Buy Milk") false; Utf16.mkTask 2 (units "mint") true]
    (units "y " ++ units "mi" ++ units "lk")
    `sublist_of`
    Utf16.filteredTasks
      [Utf16.mkTask 1 (units "Buy Milk") false; Utf16.mkTask 2 (units "mint") true]
      (units "mi").
Proof.
  assert (Utf16.below_256 (units "y ")) as Hpre
    by (vm_compute; repeat constructor).
  assert (Utf16.below_256 (units "mi")) as Hterm
    by (vm_compute; repeat constructor).
  assert (Utf16.below_256 (units "lk")) as Hpost
    by (vm_compute; repeat constructor).
  do 3 (split; [assumption|]).
  exact (longer_term_narrows_below_256 _ _ _ _ Hpre Hterm Hpost).
Defined.

(** X13. The case of the search term is of no account, as long as the
    terms are made of code units below 256: two such terms that are equal
    up to case show the same rows, whatever the texts of the store. *)
Theorem term_case_is_ignored_below_256
    (tasks : list Utf16.Task) (term term' : list N) :
  Utf16.below_256 term -> Utf16.below_256 term' ->
  Utf16.eq_up_to_case term term' ->
  Utf16.filteredTasks tasks term = Utf16.filteredTasks tasks term'.
Proof.
  intros Hterm Hterm' Heq. unfold Utf16.filteredTasks.
  rewrite (toLowerCase_below_256 term), (toLowerCase_below_256 term') by done.
  apply eq_up_to_case_lower in Heq; [|done..]. by rewrite Heq.
Qed.

Lemma term_case_is_ignored_below_256_witness :
  Utf16.below_256 (units "MiLk") /\ Utf16.below_256 (units "milk") /\
  Utf16.eq_up_to_case (units "MiLk") (units "milk") /\
  Utf16.filteredTasks
    [Utf16.mkTask 1 (units "Buy MILK") false; Utf16.mkTask 2 [927; 931]%N true]
    (units "MiLk")
  = Utf16.filteredTasks
      [Utf16.mkTask 1 (units "Buy MILK") false; Utf16.mkTask 2 [927; 931]%N true]
      (units "milk").
Proof.
  assert (Utf16.below_256 (units "MiLk")) as Hterm
    by (vm_compute; repeat constructor).
  assert (Utf16.below_256 (units "milk")) as Hterm'
    by (vm_compute; repeat constructor).
  assert (Utf16.eq_up_to_case (units "MiLk") (units "milk")) as Heq
    by (vm_compute; repeat constructor).
  do 3 (split; [assumption|]).
  exact (term_case_is_ignored_below_256 _ _ _ Hterm Hterm' Heq).
Defined.

(** ** The two string models agree below 256 *)

Lemma units_below_256 (s : string) : Utf16.below_256 (units s).
Proof.
  unfold units, Utf16.below_256.
  induction s as [|c s IH]; [constructor|].
  cbn. constructor; [apply N_ascii_bounded | exact IH].
Qed.

Lemma toLowerCase_unit_ascii (c : ascii) :
  Utf16.toLowerCase_unit (N_of_ascii c) = N_of_ascii (toLowerCase_unit c).
Proof. destruct c as [[] [] [] [] [] [] [] []]; reflexivity. Qed.

Lemma toLowerCase_units (s : string) :
  Utf16.toLowerCase (units s) = units (toLowerCase s).
Proof.
  rewrite toLowerCase_below_256 by apply units_below_256.
  unfold units. induction s as [|c s IH]; [done|].
  cbn. by rewrite toLowerCase_unit_ascii, <-IH.
Qed.

Lemma startsWith_units (search : string) : forall s : string,
  Utf16.startsWith (units s) (units search) = startsWith s search.
Proof.
  induction search as [|a search IH]; intros [|b s]; try reflexivity.
  cbn. destruct (Ascii.eqb_spec a b) as [->|Hne].
  - rewrite N.eqb_refl. apply IH.
  - destruct (N.eqb_spec (N_of_ascii a) (N_of_ascii b)) as [Heq|_]; [|done].
    apply (f_equal ascii_of_N) in Heq. by rewrite !ascii_N_embedding in Heq.
Qed.

Lemma includes_units (s search : string) :
  Utf16.includes (units s) (units search) = includes s search.
Proof.
  induction s as [|c s IH].
  - cbn [includes]. rewrite <-startsWith_units. reflexivity.
  - cbn [includes]. rewrite <-IH, <-startsWith_units. reflexivity.
Qed.

(** The test of the filter on strings of [JsString] is the test of the
    filter on their code units. *)
Lemma filter_test_units (txt term : string) :
  includes (toLowerCase txt) (toLowerCase term)
  = Utf16.includes (Utf16.toLowerCase (units txt)) (Utf16.toLowerCase (units term)).
Proof. by rewrite !toLowerCase_units, includes_units. Qed.
